(** * Resolver dispatch of package [dynamic]

    A shallow embedding of the resolver registry ([NewResolverMap]) and of
    the dispatcher ([Resolve], [getFieldResolver], [Params.Arg]) together
    with the parts of the two libraries the package calls into:
    [github.com/pkg/errors] and the type descriptors of
    [github.com/vektah/gqlgen/neelance/schema]. *)

From Stdlib Require Import Ascii String.
From stdpp Require Import gmap strings list fin_maps countable.

Local Open Scope string_scope.

(** ** Formatting: the [%v] verb of [fmt.Sprintf] on string operands *)
Module fmt.

(** Each [%v] is replaced by the next operand; a verb without operand
    prints the marker the library prints. Strings print as they are. *)
Fixpoint Sprintf (format : string) (args : list string) : string :=
  match format with
  | EmptyString => EmptyString
  | String "%"%char (String "v"%char rest) =>
      match args with
      | a :: args' => a +:+ Sprintf rest args'
      | [] => "%!v(MISSING)" +:+ Sprintf rest []
      end
  | String c rest => String c (Sprintf rest args)
  end.

End fmt.

(** ** [github.com/pkg/errors]: error values with a cause chain *)
Module errors.

(** The stack trace the library records next to every value is not
    observable through [Error] or [Cause] and is left out. *)
Inductive error : Type :=
| fundamental (msg : string)
| withMessage (cause : error) (msg : string).

(** A Go [error] interface value: [None] is [nil]. *)
Definition error_iface : Type := option error.

Fixpoint Error (e : error) : string :=
  match e with
  | fundamental msg => msg
  | withMessage cause msg => msg +:+ ": " +:+ Error cause
  end.

Fixpoint Cause (e : error) : error :=
  match e with
  | fundamental _ => e
  | withMessage cause _ => Cause cause
  end.

Definition Errorf (format : string) (args : list string) : error :=
  fundamental (fmt.Sprintf format args).

Definition Wrap (err : error_iface) (message : string) : error_iface :=
  match err with
  | None => None
  | Some e => Some (withMessage e message)
  end.

Definition Wrapf (err : error_iface) (format : string) (args : list string)
  : error_iface :=
  match err with
  | None => None
  | Some e => Some (withMessage e (fmt.Sprintf format args))
  end.

(** [e] occurs on the cause chain of [top]. *)
Fixpoint chained (e top : error) : Prop :=
  e = top \/
  match top with
  | fundamental _ => False
  | withMessage cause _ => chained e cause
  end.

Lemma chained_refl (e : error) : chained e e.
Proof. destruct e; by left. Qed.

End errors.

(** ** Type descriptors of the schema package *)
Module schema.
Section descriptors.
(** [common.Type], the declared result type of a field, is only copied
    by the resolver code. *)
Context {CommonType : Type}.

Record Field : Type := { Name : string; Type_ : CommonType }.

Definition FieldList : Type := list Field.

(** A [NamedType] is an interface value holding a pointer to one of six
    structs. Two such values are equal as map keys when the struct type
    and the address agree, so the address is part of the model; of the
    pointed-to struct the model keeps what the resolver code reads. *)
Inductive NamedType : Type :=
| Scalar (addr : positive) (name : string)
| Object (addr : positive) (name : string) (fields : FieldList)
| Interface (addr : positive) (name : string) (fields : FieldList)
| Union (addr : positive) (name : string)
| Enum (addr : positive) (name : string)
| InputObject (addr : positive) (name : string).

Definition TypeName (t : NamedType) : string :=
  match t with
  | Scalar _ n | Object _ n _ | Interface _ n _
  | Union _ n | Enum _ n | InputObject _ n => n
  end.

(** [sch.Types]: the named types of a schema, by name. The pointers a
    parsed schema holds (the schema, its types, their fields) are not
    nil, so the model has no nil descriptor. *)
Record Schema : Type := { Types : gmap string NamedType }.

Context `{Countable CommonType}.

#[global] Instance Field_eq_dec : EqDecision Field.
Proof. solve_decision. Defined.

#[global] Instance Field_countable : Countable Field.
Proof.
  apply (inj_countable' (fun f => (Name f, Type_ f))
                        (fun p => {| Name := p.1; Type_ := p.2 |})).
  by intros [].
Defined.

#[global] Instance NamedType_eq_dec : EqDecision NamedType.
Proof. solve_decision. Defined.

Definition NamedType_code (t : NamedType)
  : nat * positive * string * FieldList :=
  match t with
  | Scalar a n => (0, a, n, [])
  | Object a n fs => (1, a, n, fs)
  | Interface a n fs => (2, a, n, fs)
  | Union a n => (3, a, n, [])
  | Enum a n => (4, a, n, [])
  | InputObject a n => (5, a, n, [])
  end.

Definition NamedType_decode (c : nat * positive * string * FieldList)
  : NamedType :=
  let '(k, a, n, fs) := c in
  match k with
  | 0 => Scalar a n
  | 1 => Object a n fs
  | 2 => Interface a n fs
  | 3 => Union a n
  | 4 => Enum a n
  | _ => InputObject a n
  end.

#[global] Instance NamedType_countable : Countable NamedType.
Proof.
  apply (inj_countable' NamedType_code NamedType_decode).
  by intros [].
Defined.
End descriptors.

Arguments Field : clear implicits.
Arguments FieldList : clear implicits.
Arguments NamedType : clear implicits.
Arguments Schema : clear implicits.
End schema.

(** ** Package [dynamic]: data model *)
Section dynamic.
Context {CommonType : Type} `{Countable CommonType}.
(** The non-nil values an [interface{}] can hold. *)
Context {Value : Type}.
(** Whatever the user's resolvers read and write: a database, the
    network. The registry is not part of it. *)
Context {World : Type}.

Abbreviation NamedType := (schema.NamedType CommonType).
Abbreviation Schema := (schema.Schema CommonType).

(** [interface{}]: [None] is [nil]. *)
Definition iface : Type := option Value.

(** [Args] is a Go map, which may be [nil] ([None]) as well as empty. *)
Record Params : Type := {
  Source : iface;
  Args : option (gmap string iface)
}.

(** [len(m)] and [m[name]] on a possibly nil map: a nil map has length
    zero and reads as the zero value, like an empty one. *)
Definition len (m : option (gmap string iface)) : nat :=
  match m with
  | None => 0
  | Some m => size m
  end.

Definition index (m : option (gmap string iface)) (name : string) : iface :=
  match m with
  | None => None
  | Some m => default None (m !! name)
  end.

(** What a resolver does when it is called: it computes a result pair
    and may change the world. A resolver is taken to return; it has no
    reference to the registry. *)
Definition Handler : Type :=
  Params -> World -> (iface * errors.error_iface) * World.

(** A value of the function type [ResolverFunc] is [nil] or a closure. *)
Inductive ResolverFunc : Type :=
| nilFunc
| closure (body : Handler).

(** The maps of the registry hold pointers to the two structs below; the
    structs are written once, when they are made, so the model holds
    them by value. *)
Record FieldResolver : Type := {
  Type_ : CommonType;
  ResolverFunc_ : ResolverFunc
}.

Record TypeResolver : Type := { Fields : gmap string FieldResolver }.

Record ResolverMap : Type := { Types : gmap NamedType TypeResolver }.

(** ** Building the registry *)

Definition emptyResolver : Handler :=
  fun params w => ((None, None), w).

Definition metaTypes : list string :=
  [ "Map"; "Float"; "ID"; "Int"; "Boolean"; "String";
    "__Type"; "__TypeKind"; "__Directive"; "__EnumValue"; "__Schema";
    "__InputValue"; "__DirectiveLocation"; "__Field" ].

Definition metaType (typeName : string) : bool :=
  (fix loop (mts : list string) : bool :=
     match mts with
     | [] => false
     | mt :: mts' => if String.eqb typeName mt then true else loop mts'
     end) metaTypes.

(** [inputResolvers[key]]: a read of a Go map gives the zero value, the
    nil function, for a key that is not there. *)
Definition lookupResolver (inputResolvers : gmap string ResolverFunc)
    (key : string) : ResolverFunc :=
  default nilFunc (inputResolvers !! key).

(** The body of the loop over [t.Fields], the same for both kinds. *)
Definition bindField (inputResolvers : gmap string ResolverFunc)
    (tName : string) (fields : gmap string FieldResolver)
    (f : schema.Field CommonType) : gmap string FieldResolver :=
  let res := lookupResolver inputResolvers
               (tName +:+ "." +:+ schema.Name f) in
  let res := match res with
             | nilFunc => closure emptyResolver
             | closure _ => res
             end in
  <[schema.Name f := {| Type_ := schema.Type_ f; ResolverFunc_ := res |}]>
    fields.

(** The type switch: the field map a type ends the loop body with. *)
Definition fieldsOf (inputResolvers : gmap string ResolverFunc)
    (t : NamedType) : gmap string FieldResolver :=
  match t with
  | schema.Object _ name fields =>
      foldl (bindField inputResolvers name) ∅ fields
  | schema.Interface _ name fields =>
      foldl (bindField inputResolvers name) ∅ fields
  | schema.Union _ _ => ∅
  | _ => ∅
  end.

(** One iteration of the loop over [sch.Types]. *)
Definition visitType (inputResolvers : gmap string ResolverFunc)
    (typeMap : gmap NamedType TypeResolver) (t : NamedType)
  : gmap NamedType TypeResolver :=
  if metaType (schema.TypeName t) then typeMap
  else
    let fields := fieldsOf inputResolvers t in
    if Nat.eqb (size fields) 0 then typeMap
    else <[t := {| Fields := fields |}]> typeMap.

(** The loop, run over the values of [sch.Types] in the order [order]:
    Go leaves the order of a range over a map open. *)
Definition buildTypes (inputResolvers : gmap string ResolverFunc)
    (order : list NamedType) : gmap NamedType TypeResolver :=
  foldl (visitType inputResolvers) ∅ order.

Definition NewResolverMap (sch : Schema)
    (inputResolvers : gmap string ResolverFunc) : ResolverMap :=
  {| Types := buildTypes inputResolvers
                (map_to_list (schema.Types sch)).*2 |}.

(** ** Dispatch

    The three methods run on a machine that holds the registry behind
    the receiver, the world of the handlers and the log of the handler
    calls made so far. A run ends with a value or with a panic. *)

Record Machine : Type := {
  registry : ResolverMap;
  world : World;
  invoked : list (Handler * Params)
}.

Inductive Outcome (A : Type) : Type :=
| Done (a : A)
| Panic.
Arguments Done {A} a.
Arguments Panic {A}.

Definition Exec (A : Type) : Type := Machine -> Outcome A * Machine.

Definition ret {A} (a : A) : Exec A := fun m => (Done a, m).

Definition bind {A B} (c : Exec A) (k : A -> Exec B) : Exec B :=
  fun m =>
    match c m with
    | (Done a, m') => k a m'
    | (Panic, m') => (Panic, m')
    end.

#[local] Instance Exec_ret : MRet Exec := @ret.
#[local] Instance Exec_bind : MBind Exec := fun A B k c => bind c k.

(** [rm.Types]: a read through the receiver. *)
Definition readTypes : Exec (gmap NamedType TypeResolver) :=
  fun m => (Done (Types (registry m)), m).

(** [fn(params)]: calling the nil function panics; calling a closure
    runs it on the world and is logged. *)
Definition call (fn : ResolverFunc) (params : Params)
  : Exec (iface * errors.error_iface) :=
  fun m =>
    match fn with
    | nilFunc => (Panic, m)
    | closure h =>
        let '(res, w') := h params (world m) in
        (Done res, {| registry := registry m;
                      world := w';
                      invoked := invoked m ++ [(h, params)] |})
    end.

Definition Arg (p : Params) (name : string) : Exec iface :=
  if Nat.eqb (len (Args p)) 0 then ret None
  else ret (index (Args p) name).

Definition getFieldResolver (typ : NamedType) (field : string)
  : Exec (errors.error + FieldResolver) :=
  types ← readTypes;
  match types !! typ with
  | None =>
      ret (inl (errors.Errorf "type %v unknown" [schema.TypeName typ]))
  | Some typeResolver =>
      match Fields typeResolver !! field with
      | None =>
          ret (inl (errors.Errorf "type %v does not contain field %v"
                      [schema.TypeName typ; field]))
      | Some fieldResolver => ret (inr fieldResolver)
      end
  end.

Definition Resolve (typ : NamedType) (field : string) (params : Params)
  : Exec (iface * errors.error_iface) :=
  r ← getFieldResolver typ field;
  match r with
  | inl err => ret (None, errors.Wrap (Some err) "resolver lookup")
  | inr fieldResolver =>
      r ← call (ResolverFunc_ fieldResolver) params;
      let '(result, err) := r in
      match err with
      | Some _ =>
          ret (None,
               errors.Wrapf err "failed executing resolver for %v.%v"
                 [schema.TypeName typ; field])
      | None => ret (result, None)
      end
  end.

(** ** Vocabulary of the statements *)

(** [t.Fields] for the two kinds that have them in the type switch. *)
Definition declaredFields (t : NamedType) : schema.FieldList CommonType :=
  match t with
  | schema.Object _ _ fields | schema.Interface _ _ fields => fields
  | _ => []
  end.

Definition objectOrInterface (t : NamedType) : bool :=
  match t with
  | schema.Object _ _ _ | schema.Interface _ _ _ => true
  | _ => false
  end.

(** The key a field's handler is looked up under. *)
Definition handlerKey (t : NamedType) (field : string) : string :=
  schema.TypeName t +:+ "." +:+ field.

(** [t] is a value of the map [sch.Types]. *)
Definition declaredType (sch : Schema) (t : NamedType) : Prop :=
  exists name, schema.Types sch !! name = Some t.

(** What the loop body binds for a field of a type of the given name. *)
Definition boundTo (inputResolvers : gmap string ResolverFunc)
    (tName fName : string) : ResolverFunc :=
  match lookupResolver inputResolvers (tName +:+ "." +:+ fName) with
  | nilFunc => closure emptyResolver
  | closure h => closure h
  end.

(** The rule of one iteration: is [t] stored, and with what. *)
Definition retained (tbl : gmap string ResolverFunc) (t : NamedType) : bool :=
  negb (metaType (schema.TypeName t))
  && negb (Nat.eqb (size (fieldsOf tbl t)) 0).

(** The three failures of a dispatch, as the code builds them. *)
Definition TypeNotFound (typ : NamedType) : errors.error :=
  errors.withMessage
    (errors.fundamental ("type " +:+ schema.TypeName typ +:+ " unknown"))
    "resolver lookup".

Definition FieldNotFound (typ : NamedType) (field : string) : errors.error :=
  errors.withMessage
    (errors.fundamental
       ("type " +:+ schema.TypeName typ +:+ " does not contain field "
        +:+ field))
    "resolver lookup".

Definition HandlerExecutionError (typ : NamedType) (field : string)
    (cause : errors.error) : errors.error :=
  errors.withMessage cause
    ("failed executing resolver for " +:+ schema.TypeName typ +:+ "."
     +:+ field).

(** The result pair [Resolve] makes of the pair a handler returned. *)
Definition settle (typ : NamedType) (field : string)
    (r : iface * errors.error_iface) : iface * errors.error_iface :=
  match r.2 with
  | Some e => (None, Some (HandlerExecutionError typ field e))
  | None => (r.1, None)
  end.

(** The machine a dispatch against a registry starts from. *)
Definition serving (rm : ResolverMap) (w : World)
    (log : list (Handler * Params)) : Machine :=
  {| registry := rm; world := w; invoked := log |}.

(** ** The meta-type list *)

Lemma metaType_spec (typeName : string) :
  metaType typeName = true <-> typeName ∈ metaTypes.
Proof.
  unfold metaType. generalize metaTypes as mts.
  induction mts as [|mt mts IH].
  - split; [discriminate | by intros ?%elem_of_nil].
  - rewrite elem_of_cons, <- IH.
    destruct (String.eqb typeName mt) eqn:E.
    + apply String.eqb_eq in E. tauto.
    + apply String.eqb_neq in E. tauto.
Qed.

(** ** The field loop *)

Lemma bindField_lookup tbl tName fields f F :
  bindField tbl tName fields f !! F =
    if decide (schema.Name f = F)
    then Some {| Type_ := schema.Type_ f;
                 ResolverFunc_ := boundTo tbl tName F |}
    else fields !! F.
Proof.
  unfold bindField, boundTo. rewrite lookup_insert.
  case_decide as E; [subst F | done].
  by destruct (lookupResolver tbl _).
Qed.

Lemma foldl_bindField_other tbl tName fs : forall fields F,
  F ∉ schema.Name <$> fs ->
  foldl (bindField tbl tName) fields fs !! F = fields !! F.
Proof.
  induction fs as [|f fs IH]; intros fields F HF; [done|].
  rewrite fmap_cons, not_elem_of_cons in HF. destruct HF as [Hne HF].
  cbn [foldl]. rewrite IH by done.
  rewrite bindField_lookup. by rewrite decide_False.
Qed.

Lemma foldl_bindField_bound tbl tName fs : forall fields F,
  F ∈ schema.Name <$> fs ->
  exists f, f ∈ fs /\ schema.Name f = F /\
    foldl (bindField tbl tName) fields fs !! F =
      Some {| Type_ := schema.Type_ f;
              ResolverFunc_ := boundTo tbl tName F |}.
Proof.
  induction fs as [|f fs IH]; intros fields F HF.
  - by apply elem_of_nil in HF.
  - cbn [foldl]. destruct (decide (F ∈ schema.Name <$> fs)) as [Hin|Hout].
    + destruct (IH (bindField tbl tName fields f) F Hin) as (g & ? & ? & ?).
      exists g. split_and!; [by apply elem_of_cons; right | done | done].
    + rewrite fmap_cons, elem_of_cons in HF.
      destruct HF as [->|?]; [|done].
      exists f. split_and!; [by apply elem_of_cons; left | done |].
      rewrite foldl_bindField_other by done.
      rewrite bindField_lookup. by rewrite decide_True.
Qed.

Lemma fieldsOf_lookup_is_Some tbl t F :
  is_Some (fieldsOf tbl t !! F) <-> F ∈ schema.Name <$> declaredFields t.
Proof.
  assert (forall tName fs,
    is_Some (foldl (bindField tbl tName) ∅ fs !! F)
    <-> F ∈ schema.Name <$> fs) as Hloop.
  { intros tName fs. split.
    - intros Hsome. destruct (decide (F ∈ schema.Name <$> fs)); [done|].
      rewrite foldl_bindField_other, lookup_empty in Hsome by done.
      by destruct Hsome.
    - intros Hin.
      destruct (foldl_bindField_bound tbl tName fs ∅ F Hin) as (f & _ & _ & ->).
      eauto. }
  destruct t; cbn [fieldsOf declaredFields]; try apply Hloop;
    rewrite lookup_empty, fmap_nil, elem_of_nil;
    (split; [by intros [] | done]).
Qed.

Lemma fieldsOf_lookup tbl t f :
  f ∈ declaredFields t ->
  exists g, g ∈ declaredFields t /\ schema.Name g = schema.Name f /\
    fieldsOf tbl t !! schema.Name f =
      Some {| Type_ := schema.Type_ g;
              ResolverFunc_ :=
                boundTo tbl (schema.TypeName t) (schema.Name f) |}.
Proof.
  intros Hf.
  assert (schema.Name f ∈ schema.Name <$> declaredFields t) as Hin
    by (apply list_elem_of_fmap; eauto).
  destruct t; cbn [declaredFields] in *;
    try (by apply elem_of_nil in Hf);
    cbn [fieldsOf schema.TypeName];
    by apply foldl_bindField_bound.
Qed.

Lemma fieldsOf_size_zero tbl t :
  size (fieldsOf tbl t) = 0 <-> declaredFields t = [].
Proof.
  rewrite map_size_empty_iff, map_empty. split.
  - intros Hnone. destruct (declaredFields t) as [|f fs] eqn:E; [done|].
    assert (is_Some (fieldsOf tbl t !! schema.Name f)) as [? Hs].
    { apply fieldsOf_lookup_is_Some. rewrite E, fmap_cons.
      apply elem_of_cons; by left. }
    by rewrite Hnone in Hs.
  - intros E F. apply eq_None_not_Some.
    rewrite fieldsOf_lookup_is_Some, E, fmap_nil. apply not_elem_of_nil.
Qed.

(** ** The loop over the types *)

Lemma visitType_lookup tbl typeMap t u :
  visitType tbl typeMap t !! u =
    if decide (t = u /\ retained tbl t = true)
    then Some {| Fields := fieldsOf tbl u |}
    else typeMap !! u.
Proof.
  unfold visitType, retained.
  destruct (metaType (schema.TypeName t)); cbn.
  { rewrite decide_False; [done | by intros [_ ?]]. }
  destruct (Nat.eqb (size (fieldsOf tbl t)) 0); cbn.
  { rewrite decide_False; [done | by intros [_ ?]]. }
  rewrite lookup_insert.
  destruct (decide (t = u)) as [->|Hne].
  - by rewrite decide_True.
  - rewrite decide_False; [done | by intros [? _]].
Qed.

Lemma foldl_visitType_lookup tbl order : forall typeMap u,
  foldl (visitType tbl) typeMap order !! u =
    if decide (u ∈ order /\ retained tbl u = true)
    then Some {| Fields := fieldsOf tbl u |}
    else typeMap !! u.
Proof.
  induction order as [|t order IH]; intros typeMap u; cbn [foldl].
  - rewrite decide_False; [done | by intros [?%elem_of_nil _]].
  - rewrite IH, visitType_lookup.
    destruct (decide (u ∈ order /\ retained tbl u = true)) as [[Hin Hr]|Hn].
    + rewrite decide_True; [done | split; [by apply elem_of_cons; right | done]].
    + destruct (decide (t = u /\ retained tbl t = true)) as [[-> Hr]|Hn'].
      * rewrite decide_True; [done | split; [by apply elem_of_cons; left | done]].
      * rewrite decide_False; [done|].
        intros [[->|Hin]%elem_of_cons Hr]; [by apply Hn' | by apply Hn].
Qed.

Lemma buildTypes_lookup tbl order u :
  buildTypes tbl order !! u =
    if decide (u ∈ order /\ retained tbl u = true)
    then Some {| Fields := fieldsOf tbl u |}
    else None.
Proof.
  unfold buildTypes. rewrite foldl_visitType_lookup.
  by case_decide; [|rewrite lookup_empty].
Qed.

(** The registry does not depend on the order the range visits the types
    in, nor on how often a type is visited. *)
Lemma buildTypes_order_irrelevant tbl order order' :
  (forall t, t ∈ order <-> t ∈ order') ->
  buildTypes tbl order = buildTypes tbl order'.
Proof.
  intros Hsame. apply map_eq; intros u. rewrite !buildTypes_lookup.
  destruct (decide (u ∈ order /\ retained tbl u = true)) as [[Hin Hr]|Hn].
  - rewrite decide_True; [done | split; [by apply Hsame | done]].
  - rewrite decide_False; [done|].
    intros [Hin Hr]. apply Hn. split; [by apply Hsame | done].
Qed.

Lemma declaredType_range sch t :
  t ∈ (map_to_list (schema.Types sch)).*2 <-> declaredType sch t.
Proof.
  unfold declaredType. rewrite list_elem_of_fmap. split.
  - intros ([name t'] & -> & Hin). exists name.
    by apply elem_of_map_to_list.
  - intros [name Hname]. exists (name, t). split; [done|].
    by apply elem_of_map_to_list.
Qed.

Lemma NewResolverMap_lookup_Some sch tbl t tr :
  Types (NewResolverMap sch tbl) !! t = Some tr <->
  declaredType sch t /\ retained tbl t = true /\
  tr = {| Fields := fieldsOf tbl t |}.
Proof.
  cbn [NewResolverMap Types]. rewrite buildTypes_lookup, <- declaredType_range.
  case_decide as Hc.
  - split; [intros [= <-]; tauto | by intros (_ & _ & ->)].
  - split; [discriminate | intros (? & ? & _); tauto].
Qed.

Lemma NewResolverMap_lookup_None sch tbl t :
  Types (NewResolverMap sch tbl) !! t = None <->
  ~ (declaredType sch t /\ retained tbl t = true).
Proof.
  cbn [NewResolverMap Types]. rewrite buildTypes_lookup, <- declaredType_range.
  case_decide as Hc; [split; [discriminate | tauto] | tauto].
Qed.

Lemma retained_spec tbl t :
  retained tbl t = true <->
  metaType (schema.TypeName t) = false /\ declaredFields t <> [].
Proof.
  unfold retained.
  rewrite andb_true_iff, !negb_true_iff, Nat.eqb_neq, fieldsOf_size_zero.
  done.
Qed.

(** Every handler the registry holds is a closure: a call through the
    registry never goes to the nil function. *)
Lemma NewResolverMap_handlers_non_nil sch tbl t tr F fr :
  Types (NewResolverMap sch tbl) !! t = Some tr ->
  Fields tr !! F = Some fr ->
  ResolverFunc_ fr <> nilFunc.
Proof.
  intros (_ & _ & ->)%NewResolverMap_lookup_Some HF. cbn in HF.
  assert (F ∈ schema.Name <$> declaredFields t) as Hin
    by (apply (fieldsOf_lookup_is_Some tbl); eauto).
  apply list_elem_of_fmap in Hin as (f & -> & Hf).
  destruct (fieldsOf_lookup tbl t f Hf) as (g & _ & _ & Hg).
  rewrite Hg in HF. injection HF as <-. cbn. unfold boundTo.
  by destruct (lookupResolver tbl _).
Qed.

(** ** Running the dispatcher *)

Lemma append_empty_r (s : string) : s +:+ EmptyString = s.
Proof.
  induction s as [|c s IH]; [done|].
  change (String c (s +:+ EmptyString) = String c s). by rewrite IH.
Qed.

Lemma Sprintf_field_missing (tName field : string) :
  fmt.Sprintf "type %v does not contain field %v" [tName; field] =
  "type " +:+ tName +:+ " does not contain field " +:+ field.
Proof. rewrite <- (append_empty_r field) at 2. reflexivity. Qed.

Lemma Sprintf_failed_executing (tName field : string) :
  fmt.Sprintf "failed executing resolver for %v.%v" [tName; field] =
  "failed executing resolver for " +:+ tName +:+ "." +:+ field.
Proof. rewrite <- (append_empty_r field) at 2. reflexivity. Qed.

Lemma getFieldResolver_run typ field m :
  getFieldResolver typ field m =
    (Done
       match Types (registry m) !! typ with
       | None =>
           inl (errors.fundamental
                  ("type " +:+ schema.TypeName typ +:+ " unknown"))
       | Some typeResolver =>
           match Fields typeResolver !! field with
           | None =>
               inl (errors.fundamental
                      ("type " +:+ schema.TypeName typ
                       +:+ " does not contain field " +:+ field))
           | Some fieldResolver => inr fieldResolver
           end
       end, m).
Proof.
  unfold getFieldResolver, mbind, Exec_bind, bind, readTypes.
  destruct (Types (registry m) !! typ) as [tr|]; [|done].
  destruct (Fields tr !! field); [done|].
  unfold ret, errors.Errorf. by rewrite Sprintf_field_missing.
Qed.

Lemma Resolve_type_absent typ field params m :
  Types (registry m) !! typ = None ->
  Resolve typ field params m = (Done (None, Some (TypeNotFound typ)), m).
Proof.
  intros Habs. unfold Resolve, mbind, Exec_bind, bind.
  by rewrite getFieldResolver_run, Habs.
Qed.

Lemma Resolve_field_absent typ field params m tr :
  Types (registry m) !! typ = Some tr ->
  Fields tr !! field = None ->
  Resolve typ field params m =
    (Done (None, Some (FieldNotFound typ field)), m).
Proof.
  intros Htr Habs. unfold Resolve, mbind, Exec_bind, bind.
  by rewrite getFieldResolver_run, Htr, Habs.
Qed.

Lemma Resolve_nil_func typ field params m tr fr :
  Types (registry m) !! typ = Some tr ->
  Fields tr !! field = Some fr ->
  ResolverFunc_ fr = nilFunc ->
  Resolve typ field params m = (Panic, m).
Proof.
  intros Htr Hfr Hnil. unfold Resolve, mbind, Exec_bind, bind.
  rewrite getFieldResolver_run, Htr, Hfr. cbn. by rewrite Hnil.
Qed.

Lemma Resolve_closure typ field params m tr fr h :
  Types (registry m) !! typ = Some tr ->
  Fields tr !! field = Some fr ->
  ResolverFunc_ fr = closure h ->
  Resolve typ field params m =
    (Done (settle typ field (h params (world m)).1),
     {| registry := registry m;
        world := (h params (world m)).2;
        invoked := invoked m ++ [(h, params)] |}).
Proof.
  intros Htr Hfr Hh. unfold Resolve, mbind, Exec_bind, bind.
  rewrite getFieldResolver_run, Htr, Hfr. cbn. rewrite Hh. unfold call.
  destruct (h params (world m)) as [[v [e|]] w']; [|reflexivity].
  unfold settle, HandlerExecutionError, ret, errors.Wrapf.
  cbn [fst snd]. by rewrite Sprintf_failed_executing.
Qed.

(** The three failures are told apart by their text. *)
Lemma TypeNotFound_not_FieldNotFound typ field :
  TypeNotFound typ <> FieldNotFound typ field.
Proof.
  unfold TypeNotFound, FieldNotFound. intros [= E].
  do 2 apply (inj (String.app _)) in E. cbv in E. discriminate E.
Qed.

Lemma settle_not_lookup_failure typ field r lookupMsg :
  settle typ field r <>
    (None, Some (errors.withMessage lookupMsg "resolver lookup")).
Proof.
  unfold settle, HandlerExecutionError.
  destruct r as [v [e|]]; cbn; intros [=].
Qed.

(** The lookup failures of a dispatch on any machine. *)
Lemma Resolve_TypeNotFound_iff typ field params m :
  (Resolve typ field params m).1 = Done (None, Some (TypeNotFound typ))
  <-> Types (registry m) !! typ = None.
Proof.
  split; [|by intros ->%(Resolve_type_absent typ field params)].
  destruct (Types (registry m) !! typ) as [tr|] eqn:Htr; [|done].
  destruct (Fields tr !! field) as [fr|] eqn:Hfr.
  - destruct (ResolverFunc_ fr) as [|h] eqn:Hh.
    + by rewrite (Resolve_nil_func _ _ _ _ _ _ Htr Hfr Hh).
    + rewrite (Resolve_closure _ _ _ _ _ _ _ Htr Hfr Hh). cbn [fst].
      intros E. exfalso. injection E as E.
        by apply settle_not_lookup_failure in E.
  - rewrite (Resolve_field_absent _ _ _ _ _ Htr Hfr). cbn [fst].
    intros E. destruct (TypeNotFound_not_FieldNotFound typ field).
    congruence.
Qed.

Lemma Resolve_FieldNotFound_iff typ field params m :
  (Resolve typ field params m).1 =
    Done (None, Some (FieldNotFound typ field))
  <-> exists tr, Types (registry m) !! typ = Some tr /\
                 Fields tr !! field = None.
Proof.
  split.
  - destruct (Types (registry m) !! typ) as [tr|] eqn:Htr.
    + destruct (Fields tr !! field) as [fr|] eqn:Hfr; [|by eauto].
      destruct (ResolverFunc_ fr) as [|h] eqn:Hh.
      * by rewrite (Resolve_nil_func _ _ _ _ _ _ Htr Hfr Hh).
      * rewrite (Resolve_closure _ _ _ _ _ _ _ Htr Hfr Hh). cbn [fst].
        intros E. exfalso. injection E as E.
        by apply settle_not_lookup_failure in E.
    + rewrite (Resolve_type_absent _ _ _ _ Htr). cbn [fst].
      intros E. destruct (TypeNotFound_not_FieldNotFound typ field).
      congruence.
  - intros (tr & Htr & Hfr).
    by rewrite (Resolve_field_absent _ _ _ _ _ Htr Hfr).
Qed.

(** What the registry holds for a declared field of one of its keys. *)
Lemma NewResolverMap_field sch tbl t tr f :
  Types (NewResolverMap sch tbl) !! t = Some tr ->
  f ∈ declaredFields t ->
  exists fr, Fields tr !! schema.Name f = Some fr /\
    ResolverFunc_ fr = boundTo tbl (schema.TypeName t) (schema.Name f).
Proof.
  intros (_ & _ & ->)%NewResolverMap_lookup_Some Hf.
  destruct (fieldsOf_lookup tbl t f Hf) as (g & _ & _ & Hg).
  eexists. split; [exact Hg | done].
Qed.

(** Two handler tables that read alike at the keys of the declared
    fields of a type bind the same field map for it. *)
Lemma foldl_bindField_agree tbl tbl' tName fs : forall fields,
  (forall f, f ∈ fs ->
     lookupResolver tbl (tName +:+ "." +:+ schema.Name f) =
     lookupResolver tbl' (tName +:+ "." +:+ schema.Name f)) ->
  foldl (bindField tbl tName) fields fs =
  foldl (bindField tbl' tName) fields fs.
Proof.
  induction fs as [|f fs IH]; intros fields Hagree; [done|].
  cbn [foldl]. rewrite IH.
  - unfold bindField. rewrite (Hagree f); [done | by apply elem_of_cons; left].
  - intros g Hg. apply Hagree. by apply elem_of_cons; right.
Qed.

Lemma fieldsOf_agree tbl tbl' t :
  (forall f, f ∈ declaredFields t ->
     lookupResolver tbl (handlerKey t (schema.Name f)) =
     lookupResolver tbl' (handlerKey t (schema.Name f))) ->
  fieldsOf tbl t = fieldsOf tbl' t.
Proof.
  destruct t; cbn [fieldsOf declaredFields]; try done;
    intros Hagree; by apply foldl_bindField_agree.
Qed.

Lemma NewResolverMap_agree sch tbl tbl' :
  (forall t f, declaredType sch t -> f ∈ declaredFields t ->
     lookupResolver tbl (handlerKey t (schema.Name f)) =
     lookupResolver tbl' (handlerKey t (schema.Name f))) ->
  NewResolverMap sch tbl = NewResolverMap sch tbl'.
Proof.
  intros Hagree. unfold NewResolverMap. f_equal.
  apply map_eq; intros t. rewrite !buildTypes_lookup.
  assert (retained tbl t = true <-> retained tbl' t = true) as Hr
    by (by rewrite !retained_spec).
  destruct (decide (t ∈ (map_to_list (schema.Types sch)).*2
                    /\ retained tbl t = true)) as [[Hin Ht]|Hn].
  - rewrite decide_True by tauto. do 2 f_equal.
    apply fieldsOf_agree. intros f Hf.
    apply Hagree; [by apply declaredType_range | done].
  - rewrite decide_False by tauto. done.
Qed.

(** The registry is the one the loop ends with in whatever order the
    range visits the types of the schema. *)
Lemma NewResolverMap_any_order sch tbl order :
  (forall t, t ∈ order <-> declaredType sch t) ->
  {| Types := buildTypes tbl order |} = NewResolverMap sch tbl.
Proof.
  intros Horder. unfold NewResolverMap. f_equal.
  apply buildTypes_order_irrelevant. intros t.
  by rewrite Horder, declaredType_range.
Qed.

(** A dispatch against a built registry does not panic. *)
Lemma Resolve_never_panics sch tbl typ field params w log :
  (Resolve typ field params (serving (NewResolverMap sch tbl) w log)).1
    <> Panic.
Proof.
  set (m := serving (NewResolverMap sch tbl) w log).
  destruct (Types (registry m) !! typ) as [tr|] eqn:Htr;
    [|by rewrite Resolve_type_absent].
  destruct (Fields tr !! field) as [fr|] eqn:Hfr;
    [|by rewrite (Resolve_field_absent _ _ _ _ tr)].
  destruct (ResolverFunc_ fr) as [|h] eqn:Hh.
  - by destruct (NewResolverMap_handlers_non_nil sch tbl typ tr field fr).
  - by rewrite (Resolve_closure _ _ _ _ tr fr h).
Qed.

(** ** The claims *)

(** C3: on a registry built by [NewResolverMap], [Resolve] returns the
    type-unknown error exactly when the requested type is not a key of
    the registry, and the field-unknown error exactly when the type is a
    key and the field name is not in its field table; in both cases the
    machine is left as it was: no handler runs, the call log and the
    world are unchanged. *)
Theorem Resolve_lookup_failures
    (sch : Schema) (tbl : gmap string ResolverFunc)
    (typ : NamedType) (field : string) (params : Params)
    (w : World) (log : list (Handler * Params)) :
  let rm := NewResolverMap sch tbl in
  let run := Resolve typ field params (serving rm w log) in
  (run.1 = Done (None, Some (TypeNotFound typ))
     <-> Types rm !! typ = None)
  /\ (run.1 = Done (None, Some (FieldNotFound typ field))
     <-> exists tr, Types rm !! typ = Some tr /\ Fields tr !! field = None)
  /\ (Types rm !! typ = None
      \/ (exists tr, Types rm !! typ = Some tr /\ Fields tr !! field = None)
      -> run.2 = serving rm w log).
Proof.
  intros rm run. split_and!.
  - apply Resolve_TypeNotFound_iff.
  - apply Resolve_FieldNotFound_iff.
  - intros [Habs|(tr & Htr & Hfr)]; subst run.
    + by rewrite Resolve_type_absent.
    + by rewrite (Resolve_field_absent _ _ _ _ tr).
Qed.

(** C4: a type whose name is on the meta-type list is never a key of the
    built registry, whatever its kind, its fields and the handler
    table. *)
Theorem meta_types_never_registered
    (sch : Schema) (tbl : gmap string ResolverFunc) (t : NamedType) :
  schema.TypeName t ∈ metaTypes ->
  Types (NewResolverMap sch tbl) !! t = None.
Proof.
  intros Hmeta%metaType_spec. apply NewResolverMap_lookup_None.
  intros [_ [Hm _]%retained_spec]. congruence.
Qed.

(** C5: a type whose field map is empty at the end of the loop body, and
    so every union, is not a key of the built registry; a dispatch
    against it returns the type-unknown error (not a value, not the
    field-unknown error) and runs no handler. *)
Theorem zero_field_types_omitted
    (sch : Schema) (tbl : gmap string ResolverFunc) (t : NamedType)
    (field : string) (params : Params)
    (w : World) (log : list (Handler * Params)) :
  size (fieldsOf tbl t) = 0 \/ (exists addr name, t = schema.Union addr name) ->
  let rm := NewResolverMap sch tbl in
  size (fieldsOf tbl t) = 0
  /\ Types rm !! t = None
  /\ Resolve t field params (serving rm w log) =
       (Done (None, Some (TypeNotFound t)), serving rm w log)
  /\ TypeNotFound t <> FieldNotFound t field.
Proof.
  intros Hzero rm.
  assert (size (fieldsOf tbl t) = 0) as Hsize.
  { destruct Hzero as [?|(addr & name & ->)]; [done|].
    apply map_size_empty. }
  assert (Types rm !! t = None) as Habs.
  { apply NewResolverMap_lookup_None.
    intros [_ [_ Hf]%retained_spec]. by apply Hf, (fieldsOf_size_zero tbl). }
  split_and!; [done | done | | apply TypeNotFound_not_FieldNotFound].
  by apply Resolve_type_absent.
Qed.

(** C10: the keys of the built registry are exactly the types of the
    schema that are not meta types, are objects or interfaces and
    declare at least one field; the field table of a key has exactly the
    declared field names as keys; a type of any other kind is not a
    key. *)
Theorem registry_keys_exact
    (sch : Schema) (tbl : gmap string ResolverFunc) (t : NamedType) :
  let rm := NewResolverMap sch tbl in
  (is_Some (Types rm !! t)
     <-> declaredType sch t /\ metaType (schema.TypeName t) = false /\
         objectOrInterface t = true /\ declaredFields t <> [])
  /\ (forall tr, Types rm !! t = Some tr ->
       forall F, is_Some (Fields tr !! F)
                 <-> F ∈ schema.Name <$> declaredFields t)
  /\ (objectOrInterface t = false -> Types rm !! t = None).
Proof.
  intros rm.
  assert (declaredFields t <> [] -> objectOrInterface t = true) as Hkind
    by (by destruct t).
  split_and!.
  - split.
    + intros [tr (Hd & [Hm Hf]%retained_spec & _)%NewResolverMap_lookup_Some].
      auto.
    + intros (Hd & Hm & _ & Hf). eexists.
      apply NewResolverMap_lookup_Some.
      split_and!; [done | by apply retained_spec | done].
  - intros tr (_ & _ & ->)%NewResolverMap_lookup_Some F.
    apply fieldsOf_lookup_is_Some.
  - intros Hother. apply NewResolverMap_lookup_None.
    intros [_ [_ Hf]%retained_spec]. apply Hkind in Hf. congruence.
Qed.

(** C1: for a key [t] of the built registry and a declared field [f] of
    [t] whose key in the handler table holds the handler [h], a dispatch
    on [t] and the name of [f] makes exactly one handler call, which is
    [h] on the given parameters, leaves the world as [h] left it, and,
    when [h] returned no error, returns the value [h] returned with no
    error. *)
Theorem Resolve_invokes_supplied_handler
    (sch : Schema) (tbl : gmap string ResolverFunc)
    (t : NamedType) (tr : TypeResolver) (f : schema.Field CommonType)
    (h : Handler) (params : Params)
    (w : World) (log : list (Handler * Params)) :
  Types (NewResolverMap sch tbl) !! t = Some tr ->
  f ∈ declaredFields t ->
  tbl !! handlerKey t (schema.Name f) = Some (closure h) ->
  let rm := NewResolverMap sch tbl in
  let run := Resolve t (schema.Name f) params (serving rm w log) in
  objectOrInterface t = true
  /\ run.2 = serving rm (h params w).2 (log ++ [(h, params)])
  /\ (forall v, (h params w).1 = (v, None) -> run.1 = Done (v, None)).
Proof.
  intros Htr Hf Hh rm run.
  destruct (NewResolverMap_field sch tbl t tr f Htr Hf) as (fr & Hfr & Hres).
  unfold boundTo, lookupResolver in Hres.
  change (schema.TypeName t +:+ "." +:+ schema.Name f)
    with (handlerKey t (schema.Name f)) in Hres.
  rewrite Hh in Hres. cbn in Hres.
  subst run.
  rewrite (Resolve_closure t (schema.Name f) params (serving rm w log)
             tr fr h Htr Hfr Hres).
  split_and!; [by destruct t; try apply elem_of_nil in Hf | done |].
  intros v Hv. cbn [fst serving world]. by rewrite Hv.
Qed.

(** C2: for a key [t] of the built registry and a declared field [f] of
    [t] whose key is not in the handler table, the registry binds the
    no-op handler, which is not nil, and a dispatch on [t] and the name
    of [f] returns the nil value and no error, with the world unchanged
    and the no-op handler as the only call. *)
Theorem Resolve_noop_fallback
    (sch : Schema) (tbl : gmap string ResolverFunc)
    (t : NamedType) (tr : TypeResolver) (f : schema.Field CommonType)
    (params : Params) (w : World) (log : list (Handler * Params)) :
  Types (NewResolverMap sch tbl) !! t = Some tr ->
  f ∈ declaredFields t ->
  tbl !! handlerKey t (schema.Name f) = None ->
  let rm := NewResolverMap sch tbl in
  (exists fr, Fields tr !! schema.Name f = Some fr /\
              ResolverFunc_ fr = closure emptyResolver /\
              ResolverFunc_ fr <> nilFunc)
  /\ Resolve t (schema.Name f) params (serving rm w log) =
       (Done (None, None),
        serving rm w (log ++ [(emptyResolver, params)])).
Proof.
  intros Htr Hf Hnone rm.
  destruct (NewResolverMap_field sch tbl t tr f Htr Hf) as (fr & Hfr & Hres).
  unfold boundTo, lookupResolver in Hres.
  change (schema.TypeName t +:+ "." +:+ schema.Name f)
    with (handlerKey t (schema.Name f)) in Hres.
  rewrite Hnone in Hres. cbn in Hres.
  split.
  - exists fr. split_and!; [done | done | by rewrite Hres].
  - by rewrite (Resolve_closure t (schema.Name f) params (serving rm w log)
                  tr fr emptyResolver Htr Hfr Hres).
Qed.

(** C6: when the handler bound to a field returns an error [e], whatever
    value it returns with it, [Resolve] returns the nil value together
    with an error that wraps [e]: its message names the type and the
    field, [e] is on its cause chain, and its root cause is the one of
    [e]. *)
Theorem Resolve_wraps_handler_error
    (typ : NamedType) (field : string) (params : Params) (m : Machine)
    (tr : TypeResolver) (fr : FieldResolver) (h : Handler)
    (v : iface) (e : errors.error) (w' : World) :
  Types (registry m) !! typ = Some tr ->
  Fields tr !! field = Some fr ->
  ResolverFunc_ fr = closure h ->
  h params (world m) = ((v, Some e), w') ->
  let top := HandlerExecutionError typ field e in
  (Resolve typ field params m).1 = Done (None, Some top)
  /\ top = errors.withMessage e
             ("failed executing resolver for " +:+ schema.TypeName typ
              +:+ "." +:+ field)
  /\ errors.chained e top
  /\ errors.Cause top = errors.Cause e
  /\ errors.Error top =
       ("failed executing resolver for " +:+ schema.TypeName typ
        +:+ "." +:+ field) +:+ ": " +:+ errors.Error e.
Proof.
  intros Htr Hfr Hh Hrun top.
  rewrite (Resolve_closure typ field params m tr fr h Htr Hfr Hh), Hrun.
  split_and!; try reflexivity.
  right. apply errors.chained_refl.
Qed.

(** C7: [Arg] always returns, without panic and on an unchanged machine:
    the bound value when the name is bound, and nil when the argument
    map is nil, is empty or does not bind the name. *)
Theorem Arg_total (p : Params) (name : string) (m : Machine) :
  (exists v, Arg p name m = (Done v, m))
  /\ (forall args v, Args p = Some args -> args !! name = Some v ->
       Arg p name m = (Done v, m))
  /\ (Args p = None \/ Args p = Some ∅ \/
      (exists args, Args p = Some args /\ args !! name = None) ->
      Arg p name m = (Done None, m)).
Proof.
  unfold Arg, index, len. split_and!.
  - destruct (Nat.eqb _ 0); eauto.
  - intros args v Hargs Hv. unfold iface in *. rewrite Hargs.
    destruct (Nat.eqb (size args) 0) eqn:E.
    + apply Nat.eqb_eq, map_size_empty_iff in E. subst args.
      by rewrite lookup_empty in Hv.
    + by rewrite Hv.
  - intros [Hnil|[Hemp|(args & Hargs & Hname)]].
    + by rewrite Hnil.
    + rewrite Hemp. by rewrite map_size_empty.
    + unfold iface in *. rewrite Hargs, Hname.
      by destruct (Nat.eqb (size args) 0).
Qed.

(** C8: the build is a total function of the schema and the handler
    table; an entry of the table whose key is the key of no declared
    field of a declared type has no effect: with the entry set to any
    function, or removed, the registry is the same. *)
Theorem NewResolverMap_ignores_unmatched_entries
    (sch : Schema) (tbl : gmap string ResolverFunc)
    (key : string) (r : ResolverFunc) :
  (forall t f, declaredType sch t -> f ∈ declaredFields t ->
     key <> handlerKey t (schema.Name f)) ->
  NewResolverMap sch (<[key := r]> tbl) = NewResolverMap sch tbl
  /\ NewResolverMap sch (delete key tbl) = NewResolverMap sch tbl.
Proof.
  intros Hunmatched. split; apply NewResolverMap_agree;
    intros t f Ht Hf; unfold lookupResolver;
    specialize (Hunmatched t f Ht Hf).
  - by rewrite lookup_insert_ne.
  - by rewrite lookup_delete_ne.
Qed.

(** C9: [Resolve], [getFieldResolver] and [Arg] leave the registry as
    it was, types, field tables, handlers and result types, whether the
    call returns a value, returns an error or panics. *)
Theorem dispatch_read_only
    (typ : NamedType) (field : string) (params : Params)
    (name : string) (m : Machine) :
  registry (Resolve typ field params m).2 = registry m
  /\ registry (getFieldResolver typ field m).2 = registry m
  /\ registry (Arg params name m).2 = registry m.
Proof.
  split_and!.
  - destruct (Types (registry m) !! typ) as [tr|] eqn:Htr;
      [|by rewrite Resolve_type_absent].
    destruct (Fields tr !! field) as [fr|] eqn:Hfr;
      [|by rewrite (Resolve_field_absent _ _ _ _ tr)].
    destruct (ResolverFunc_ fr) as [|h] eqn:Hh.
    + by rewrite (Resolve_nil_func _ _ _ _ tr fr).
    + by rewrite (Resolve_closure _ _ _ _ tr fr h).
  - by rewrite getFieldResolver_run.
  - unfold Arg. by destruct (Nat.eqb (len (Args params)) 0).
Qed.

(** ** More of the build: which declaration a field entry comes from *)

(** The last field of the list that has the name [F]: the one whose
    write to [fields[F]] is not overwritten. *)
Fixpoint lastNamed (F : string) (fs : schema.FieldList CommonType)
  : option (schema.Field CommonType) :=
  match fs with
  | [] => None
  | f :: fs' =>
      match lastNamed F fs' with
      | Some g => Some g
      | None => if decide (schema.Name f = F) then Some f else None
      end
  end.

Lemma foldl_bindField_lookup tbl tName fs : forall fields F,
  foldl (bindField tbl tName) fields fs !! F =
    match lastNamed F fs with
    | Some f => Some {| Type_ := schema.Type_ f;
                        ResolverFunc_ := boundTo tbl tName F |}
    | None => fields !! F
    end.
Proof.
  induction fs as [|f fs IH]; intros fields F; [done|].
  cbn [foldl lastNamed]. rewrite IH.
  destruct (lastNamed F fs); [done|].
  rewrite bindField_lookup. by case_decide.
Qed.

Lemma fieldsOf_lastNamed tbl t F :
  fieldsOf tbl t !! F =
    (fun f => {| Type_ := schema.Type_ f;
                 ResolverFunc_ := boundTo tbl (schema.TypeName t) F |})
    <$> lastNamed F (declaredFields t).
Proof.
  destruct t; cbn [fieldsOf declaredFields schema.TypeName lastNamed];
    rewrite ?foldl_bindField_lookup, ?lookup_empty; try done;
    by destruct (lastNamed F fields).
Qed.

Lemma lastNamed_none F fs :
  F ∉ schema.Name <$> fs -> lastNamed F fs = None.
Proof.
  induction fs as [|f fs IH]; [done|].
  rewrite fmap_cons, not_elem_of_cons. intros [Hne Hnot].
  cbn [lastNamed]. rewrite IH by done. by rewrite decide_False.
Qed.

Lemma lastNamed_split (pre post : schema.FieldList CommonType) f :
  schema.Name f ∉ schema.Name <$> post ->
  lastNamed (schema.Name f) (pre ++ f :: post)%list = Some f.
Proof.
  intros Hpost. induction pre as [|g pre IH].
  - cbn [app lastNamed]. rewrite lastNamed_none by done.
    by rewrite decide_True.
  - cbn [app lastNamed]. by rewrite IH.
Qed.

Lemma Resolve_keeps_registry typ field params m :
  registry (Resolve typ field params m).2 = registry m.
Proof.
  destruct (Types (registry m) !! typ) as [tr|] eqn:Htr;
    [|by rewrite Resolve_type_absent].
  destruct (Fields tr !! field) as [fr|] eqn:Hfr;
    [|by rewrite (Resolve_field_absent _ _ _ _ tr)].
  destruct (ResolverFunc_ fr) as [|h] eqn:Hh.
  - by rewrite (Resolve_nil_func _ _ _ _ tr fr).
  - by rewrite (Resolve_closure _ _ _ _ tr fr h).
Qed.

(** ** Further properties of the build and of the dispatch *)

(** X1: the registry does not depend on the order in which the range over
    [sch.Types] visits the types, nor on a type being visited more than
    once: the loop run over any list that holds exactly the types of the
    schema ends with the registry of [NewResolverMap]. *)
Theorem build_order_irrelevant
    (sch : Schema) (tbl : gmap string ResolverFunc)
    (order : list NamedType) :
  (forall t, t ∈ order <-> declaredType sch t) ->
  foldl (visitType tbl) ∅ order = Types (NewResolverMap sch tbl).
Proof.
  intros Horder. cbn [NewResolverMap Types]. unfold buildTypes.
  apply map_eq; intros u. rewrite !foldl_visitType_lookup.
  assert (u ∈ order <-> u ∈ (map_to_list (schema.Types sch)).*2) as Hu
    by (by rewrite Horder, declaredType_range).
  destruct (decide (u ∈ order /\ retained tbl u = true)) as [[? ?]|Hn].
  - rewrite decide_True; [done | split; [by apply Hu | done]].
  - rewrite decide_False; [done|].
    intros [? ?]. apply Hn. split; [by apply Hu | done].
Qed.

(** X2: the name a type is filed under in [sch.Types] is never read, only
    its own [TypeName]: two schemas that hold the same types, under
    whatever names and however often, build the same registry. *)
Theorem build_ignores_filing_names
    (sch sch' : Schema) (tbl : gmap string ResolverFunc) :
  (forall t, declaredType sch t <-> declaredType sch' t) ->
  NewResolverMap sch tbl = NewResolverMap sch' tbl.
Proof.
  intros Hsame. unfold NewResolverMap. f_equal.
  apply buildTypes_order_irrelevant. intros t.
  by rewrite !declaredType_range.
Qed.



(** X5: on any registry, a dispatch either leaves the machine as it was
    or makes exactly one call, of the closure bound to the type and field
    it was asked for, on the parameters it was given; the world after the
    dispatch is the one that call left. *)
Theorem Resolve_calls_at_most_one_handler
    (typ : NamedType) (field : string) (params : Params) (m : Machine) :
  let m' := (Resolve typ field params m).2 in
  m' = m
  \/ exists tr fr h,
       Types (registry m) !! typ = Some tr
       /\ Fields tr !! field = Some fr
       /\ ResolverFunc_ fr = closure h
       /\ registry m' = registry m
       /\ world m' = (h params (world m)).2
       /\ invoked m' = (invoked m ++ [(h, params)])%list.
Proof.
  intros m'; subst m'.
  destruct (Types (registry m) !! typ) as [tr|] eqn:Htr;
    [|left; by rewrite Resolve_type_absent].
  destruct (Fields tr !! field) as [fr|] eqn:Hfr;
    [|left; by rewrite (Resolve_field_absent _ _ _ _ tr)].
  destruct (ResolverFunc_ fr) as [|h] eqn:Hh.
  - left. by rewrite (Resolve_nil_func _ _ _ _ tr fr).
  - right. exists tr, fr, h.
    by rewrite (Resolve_closure _ _ _ _ tr fr h).
Qed.

(** X6: when a type declares the same field name more than once, the
    registry holds one entry for the name and its result type is the one
    of the last declaration. *)
Theorem duplicate_field_last_wins
    (sch : Schema) (tbl : gmap string ResolverFunc)
    (t : NamedType) (tr : TypeResolver)
    (pre post : schema.FieldList CommonType) (f : schema.Field CommonType) :
  Types (NewResolverMap sch tbl) !! t = Some tr ->
  declaredFields t = (pre ++ f :: post)%list ->
  schema.Name f ∉ schema.Name <$> post ->
  exists fr, Fields tr !! schema.Name f = Some fr
             /\ Type_ fr = schema.Type_ f.
Proof.
  intros (_ & _ & ->)%NewResolverMap_lookup_Some Hsplit Hpost.
  cbn [Fields]. rewrite fieldsOf_lastNamed, Hsplit.
  rewrite lastNamed_split by done. eauto.
Qed.

(** X7: a handler is bound by the text of its key, not by the identity of
    the type: two fields of keys of the registry whose handler keys are
    the same string (two types of one name, say) are bound to the same
    function. *)
Theorem handlers_bound_by_key
    (sch : Schema) (tbl : gmap string ResolverFunc)
    (t1 t2 : NamedType) (tr1 tr2 : TypeResolver)
    (F1 F2 : string) (fr1 fr2 : FieldResolver) :
  Types (NewResolverMap sch tbl) !! t1 = Some tr1 ->
  Types (NewResolverMap sch tbl) !! t2 = Some tr2 ->
  Fields tr1 !! F1 = Some fr1 ->
  Fields tr2 !! F2 = Some fr2 ->
  handlerKey t1 F1 = handlerKey t2 F2 ->
  ResolverFunc_ fr1 = ResolverFunc_ fr2.
Proof.
  intros (_ & _ & ->)%NewResolverMap_lookup_Some
         (_ & _ & ->)%NewResolverMap_lookup_Some.
  cbn [Fields]. rewrite !fieldsOf_lastNamed.
  destruct (lastNamed F1 _) as [f1|]; [|done].
  destruct (lastNamed F2 _) as [f2|]; [|done].
  intros [= <-] [= <-] Hkey. cbn [ResolverFunc_].
  unfold boundTo. unfold handlerKey in Hkey. by rewrite Hkey.
Qed.

(** X8: the early return of [Arg] on an empty map changes nothing: [Arg]
    is the plain read of the argument map, so it returns nil exactly when
    the name is not bound to a value that is not nil; a name bound to nil
    reads like a name that is not bound. *)
Theorem Arg_is_plain_read (p : Params) (name : string) (m : Machine) :
  Arg p name m = (Done (index (Args p) name), m)
  /\ ((Arg p name m).1 = Done None
      <-> forall args v, Args p = Some args -> args !! name <> Some (Some v)).
Proof.
  assert (Arg p name m = (Done (index (Args p) name), m)) as Hread.
  { unfold Arg, index, len. destruct (Args p) as [args|]; [|done].
    destruct (Nat.eqb (size args) 0) eqn:E; [|done].
    apply Nat.eqb_eq, map_size_empty_iff in E. subst args.
    unfold iface. by rewrite lookup_empty. }
  split; [done|]. rewrite Hread. cbn [fst]. clear Hread.
  destruct (Args p) as [args|]; cbn [index];
    [|split; [by intros _ args v | done]].
  match goal with
  | |- context [default None ?x] => destruct x as [[v|]|] eqn:E
  end; cbn [default].
  - split; [discriminate|]. intros Hno. destruct (Hno args v eq_refl E).
  - split; [|done]. intros _ args' v Heq Hv. injection Heq as <-.
    pose proof (eq_trans (eq_sym E) Hv) as X. discriminate X.
  - split; [|done]. intros _ args' v Heq Hv. injection Heq as <-.
    pose proof (eq_trans (eq_sym E) Hv) as X. discriminate X.
Qed.

(** X9: the entry of a type depends on that type and on the handler table
    only: a schema that holds at least the types of another builds a
    registry that holds at least the entries of the other's, unchanged. *)
Theorem build_monotone
    (sch sch' : Schema) (tbl : gmap string ResolverFunc) :
  (forall t, declaredType sch t -> declaredType sch' t) ->
  Types (NewResolverMap sch tbl) ⊆ Types (NewResolverMap sch' tbl).
Proof.
  intros Hsub. apply map_subseteq_spec. intros t tr.
  rewrite !NewResolverMap_lookup_Some. intros (Hd & Hr & ->). auto.
Qed.

(** X10: setting the entry of one key of the handler table changes the
    registry at most at the fields whose handler key is that key: every
    other field of every type keeps its entry. *)
Theorem build_entry_local
    (sch : Schema) (tbl : gmap string ResolverFunc)
    (key : string) (r : ResolverFunc) (t : NamedType) (F : string) :
  handlerKey t F <> key ->
  Types (NewResolverMap sch (<[key := r]> tbl)) !! t
    ≫= (fun tr => Fields tr !! F)
  = Types (NewResolverMap sch tbl) !! t ≫= (fun tr => Fields tr !! F).
Proof.
  intros Hkey.
  assert (fieldsOf (<[key := r]> tbl) t !! F = fieldsOf tbl t !! F) as Hsame.
  { rewrite !fieldsOf_lastNamed. unfold boundTo, lookupResolver.
    change (schema.TypeName t +:+ "." +:+ F) with (handlerKey t F).
    by rewrite lookup_insert_ne. }
  destruct (Types (NewResolverMap sch tbl) !! t) as [tr|] eqn:E.
  - apply NewResolverMap_lookup_Some in E as (Hd & Hr & ->).
    assert (Types (NewResolverMap sch (<[key := r]> tbl)) !! t
            = Some {| Fields := fieldsOf (<[key := r]> tbl) t |}) as ->.
    { apply NewResolverMap_lookup_Some. split_and!; [done | | done].
      apply retained_spec. by apply retained_spec in Hr. }
    done.
  - assert (Types (NewResolverMap sch (<[key := r]> tbl)) !! t = None) as ->.
    { apply NewResolverMap_lookup_None. intros [Hd Hr].
      apply NewResolverMap_lookup_None in E. apply E. split; [done|].
      apply retained_spec. by apply retained_spec in Hr. }
    done.
Qed.

(** X11: the handler table decides the bound functions and nothing else:
    two tables build registries with the same keys, and at every field of
    every key the two entries exist together and hold the same result
    type. *)
Theorem handler_table_binds_functions_only
    (sch : Schema) (tbl tbl' : gmap string ResolverFunc)
    (t : NamedType) (F : string) :
  let rm := NewResolverMap sch tbl in
  let rm' := NewResolverMap sch tbl' in
  (is_Some (Types rm !! t) <-> is_Some (Types rm' !! t))
  /\ Type_ <$> (Types rm !! t ≫= fun tr => Fields tr !! F)
     = Type_ <$> (Types rm' !! t ≫= fun tr => Fields tr !! F).
Proof.
  intros rm rm'. subst rm rm'.
  assert (forall a b : gmap string ResolverFunc,
            retained a t = true -> retained b t = true) as Hret.
  { intros a b Hr. apply retained_spec. by apply retained_spec in Hr. }
  assert (forall a b : gmap string ResolverFunc,
            is_Some (Types (NewResolverMap sch a) !! t) ->
            Types (NewResolverMap sch b) !! t
              = Some {| Fields := fieldsOf b t |}) as Hkeys.
  { intros a b [tr (Hd & Hr & _)%NewResolverMap_lookup_Some].
    apply NewResolverMap_lookup_Some. eauto. }
  split; [split; intros Hs; rewrite (Hkeys _ _ Hs); eauto|].
  destruct (Types (NewResolverMap sch tbl) !! t) as [tr|] eqn:E.
  - rewrite (Hkeys tbl tbl') by (rewrite E; eauto).
    rewrite (Hkeys tbl tbl) in E by (rewrite E; eauto).
    injection E as <-. cbn. rewrite !fieldsOf_lastNamed.
    by destruct (lastNamed F (declaredFields t)).
  - destruct (Types (NewResolverMap sch tbl') !! t) as [tr'|] eqn:E'; [|done].
    rewrite (Hkeys tbl' tbl) in E by (rewrite E'; eauto). done.
Qed.

(** X12: what the caller reads in a lookup failure, on any registry: the
    message is the text [resolver lookup: type T unknown], or
    [resolver lookup: type T does not contain field F], and the root
    cause is the error without the prefix. *)
Theorem lookup_failure_messages
    (typ : NamedType) (field : string) (params : Params) (m : Machine) :
  (Types (registry m) !! typ = None ->
   exists e, (Resolve typ field params m).1 = Done (None, Some e)
     /\ errors.Error e =
          "resolver lookup: type " +:+ schema.TypeName typ +:+ " unknown"
     /\ errors.Cause e =
          errors.fundamental
            ("type " +:+ schema.TypeName typ +:+ " unknown"))
  /\ (forall tr, Types (registry m) !! typ = Some tr ->
      Fields tr !! field = None ->
      exists e, (Resolve typ field params m).1 = Done (None, Some e)
        /\ errors.Error e =
             "resolver lookup: type " +:+ schema.TypeName typ
             +:+ " does not contain field " +:+ field
        /\ errors.Cause e =
             errors.fundamental
               ("type " +:+ schema.TypeName typ
                +:+ " does not contain field " +:+ field)).
Proof.
  split.
  - intros Habs. exists (TypeNotFound typ).
    rewrite Resolve_type_absent by done. done.
  - intros tr Htr Hfr. exists (FieldNotFound typ field).
    rewrite (Resolve_field_absent _ _ _ _ tr) by done. done.
Qed.

(** X13: dispatches compose: after any dispatch against a built registry,
    whether it returned a value or an error, a second dispatch on a
    declared field with a supplied handler [h] still reaches [h], which
    runs on the world the first dispatch left and is logged after the
    calls of the first. *)
Theorem dispatch_sequence
    (sch : Schema) (tbl : gmap string ResolverFunc)
    (typ1 : NamedType) (field1 : string) (params1 : Params)
    (t : NamedType) (tr : TypeResolver) (f : schema.Field CommonType)
    (h : Handler) (params : Params)
    (w : World) (log : list (Handler * Params)) :
  Types (NewResolverMap sch tbl) !! t = Some tr ->
  f ∈ declaredFields t ->
  tbl !! handlerKey t (schema.Name f) = Some (closure h) ->
  let rm := NewResolverMap sch tbl in
  let m1 := (Resolve typ1 field1 params1 (serving rm w log)).2 in
  bind (Resolve typ1 field1 params1)
       (fun _ => Resolve t (schema.Name f) params) (serving rm w log)
  = (Done (settle t (schema.Name f) (h params (world m1)).1),
     {| registry := rm;
        world := (h params (world m1)).2;
        invoked := invoked m1 ++ [(h, params)] |}).
Proof.
  intros Htr Hf Hh rm m1.
  destruct (NewResolverMap_field sch tbl t tr f Htr Hf) as (fr & Hfr & Hres).
  unfold boundTo, lookupResolver in Hres.
  change (schema.TypeName t +:+ "." +:+ schema.Name f)
    with (handlerKey t (schema.Name f)) in Hres.
  rewrite Hh in Hres. cbn in Hres.
  pose proof (Resolve_never_panics sch tbl typ1 field1 params1 w log) as Hnp.
  pose proof (Resolve_keeps_registry typ1 field1 params1 (serving rm w log))
    as Hreg.
  unfold bind. subst m1. fold rm in Hnp.
  destruct (Resolve typ1 field1 params1 (serving rm w log)) as [[r1|] m1];
    [|done].
  cbn [fst snd] in *.
  assert (Types (registry m1) !! t = Some tr) as Htr1 by (by rewrite Hreg).
  rewrite (Resolve_closure t (schema.Name f) params m1 tr fr h Htr1 Hfr Hres).
  by rewrite Hreg.
Qed.

(** X14: an entry of the handler table that holds the nil function is
    read as no entry: setting a key to nil and removing the key build the
    same registry. *)
Theorem nil_entry_is_no_entry
    (sch : Schema) (tbl : gmap string ResolverFunc) (key : string) :
  NewResolverMap sch (<[key := nilFunc]> tbl)
  = NewResolverMap sch (delete key tbl).
Proof.
  apply NewResolverMap_agree. intros t f _ _. unfold lookupResolver.
  destruct (decide (key = handlerKey t (schema.Name f))) as [->|Hne].
  - by rewrite lookup_insert_eq, lookup_delete_eq.
  - by rewrite lookup_insert_ne, lookup_delete_ne.
Qed.

(** X15: on any registry, a result without error comes from the bound
    handler: when [Resolve] returns a value and the nil error, the type
    and the field are in the registry, bound to a closure, and that
    closure returned this value and the nil error. *)
Theorem Resolve_success_shape
    (typ : NamedType) (field : string) (params : Params) (m : Machine)
    (v : iface) :
  (Resolve typ field params m).1 = Done (v, None) ->
  exists tr fr h,
    Types (registry m) !! typ = Some tr
    /\ Fields tr !! field = Some fr
    /\ ResolverFunc_ fr = closure h
    /\ (h params (world m)).1 = (v, None).
Proof.
  destruct (Types (registry m) !! typ) as [tr|] eqn:Htr;
    [|by rewrite Resolve_type_absent].
  destruct (Fields tr !! field) as [fr|] eqn:Hfr;
    [|by rewrite (Resolve_field_absent _ _ _ _ tr)].
  destruct (ResolverFunc_ fr) as [|h] eqn:Hh.
  - by rewrite (Resolve_nil_func _ _ _ _ tr fr).
  - rewrite (Resolve_closure _ _ _ _ tr fr h) by done. cbn [fst].
    unfold settle. destruct (h params (world m)).1 as [v' [e'|]] eqn:Hrun;
      cbn [fst snd]; intros [= <-].
    exists tr, fr, h. by rewrite Hrun.
Qed.

(** X16: an entry of the handler table is unused as well when its key is
    the key of declared fields of meta types only: the type is skipped
    before its fields are read, so the registry is the same whatever the
    entry holds. *)
Theorem build_ignores_meta_type_entries
    (sch : Schema) (tbl : gmap string ResolverFunc)
    (key : string) (r : ResolverFunc) :
  (forall t f, declaredType sch t -> f ∈ declaredFields t ->
     key = handlerKey t (schema.Name f) ->
     metaType (schema.TypeName t) = true) ->
  NewResolverMap sch (<[key := r]> tbl) = NewResolverMap sch tbl.
Proof.
  intros Hmeta. unfold NewResolverMap. f_equal.
  apply map_eq; intros t. rewrite !buildTypes_lookup.
  assert (retained (<[key := r]> tbl) t = true <-> retained tbl t = true)
    as Hr by (by rewrite !retained_spec).
  destruct (decide (t ∈ (map_to_list (schema.Types sch)).*2
                    /\ retained tbl t = true)) as [[Hin Ht]|Hn].
  - rewrite decide_True by tauto. do 2 f_equal.
    apply fieldsOf_agree. intros f Hf. unfold lookupResolver.
    rewrite lookup_insert_ne; [done|]. intros Hkey.
    apply retained_spec in Ht as [Hnot _].
    rewrite (Hmeta t f) in Hnot; [done | by apply declaredType_range | done..].
  - rewrite decide_False by tauto. done.
Qed.

End dynamic.

Arguments Done {A} a.
Arguments Panic {A}.

(** ** A schema to run the code on

    Result types are written by name, values are strings, and the world
    is the number of reads the handlers have made of their database. *)
Module example.

Definition idField : schema.Field string :=
  {| schema.Name := "id"; schema.Type_ := "ID" |}.
Definition nameField : schema.Field string :=
  {| schema.Name := "name"; schema.Type_ := "String" |}.

Definition User : schema.NamedType string :=
  schema.Object 1 "User" [idField; nameField].
Definition Node : schema.NamedType string :=
  schema.Interface 2 "Node" [idField].
Definition SearchResult : schema.NamedType string :=
  schema.Union 3 "SearchResult".
Definition Role : schema.NamedType string := schema.Enum 4 "Role".
Definition Empty : schema.NamedType string := schema.Object 5 "Empty" [].
Definition introspectionType : schema.NamedType string :=
  schema.Object 6 "__Type" [nameField].
Definition Unregistered : schema.NamedType string :=
  schema.Object 7 "Unregistered" [idField].

Definition sch : schema.Schema string :=
  {| schema.Types :=
       list_to_map
         [ ("User", User); ("Node", Node); ("SearchResult", SearchResult);
           ("Role", Role); ("Empty", Empty);
           ("__Type", introspectionType) ] |}.

Definition nameHandler : @Handler string nat :=
  fun params reads => ((Some "Ada", None), S reads).

Definition dbDown : errors.error := errors.fundamental "db down".

Definition failingHandler : @Handler string nat :=
  fun params reads => ((Some "stale", Some dbDown), S reads).

Definition handlers : gmap string (@ResolverFunc string nat) :=
  list_to_map
    [ ("User.name", closure nameHandler);
      ("Node.id", closure failingHandler);
      ("__Type.name", closure nameHandler);
      ("SearchResult.id", closure nameHandler) ].

Definition ctx : @Params string :=
  {| Source := Some "parent";
     Args := Some (list_to_map [("first", Some "10")]) |}.

Definition noArgs : @Params string := {| Source := None; Args := None |}.

Definition rm : @ResolverMap string _ _ string nat :=
  NewResolverMap sch handlers.

Definition start : Machine := serving rm 0 [].

End example.

(** ** The scenarios of the specification, evaluated *)

Example run_User_name :
  (Resolve example.User "name" example.ctx example.start).1 =
    Done (Some "Ada", None).
Proof. vm_compute. reflexivity. Qed.

Example run_User_name_calls :
  let m := (Resolve example.User "name" example.ctx example.start).2 in
  invoked m = [(example.nameHandler, example.ctx)] /\ world m = 1.
Proof. vm_compute. split; reflexivity. Qed.

Example run_User_id :
  (Resolve example.User "id" example.ctx example.start).1 =
    Done (None, None).
Proof. vm_compute. reflexivity. Qed.

Example run_User_email :
  (Resolve example.User "email" example.ctx example.start).1 =
    Done (None,
          Some (errors.withMessage
                  (errors.fundamental
                     "type User does not contain field email")
                  "resolver lookup")).
Proof. vm_compute. reflexivity. Qed.

Example run_Unregistered :
  (Resolve example.Unregistered "x" example.ctx example.start).1 =
    Done (None,
          Some (errors.withMessage
                  (errors.fundamental "type Unregistered unknown")
                  "resolver lookup")).
Proof. vm_compute. reflexivity. Qed.

Example run_db_down :
  match (Resolve example.Node "id" example.ctx example.start).1 with
  | Done (None, Some e) =>
      errors.Error e = "failed executing resolver for Node.id: db down"
      /\ errors.Cause e = example.dbDown
  | _ => False
  end.
Proof. vm_compute. split; reflexivity. Qed.

Example run_SearchResult :
  (Resolve example.SearchResult "id" example.ctx example.start).1 =
    Done (None, Some (TypeNotFound example.SearchResult)).
Proof. vm_compute. reflexivity. Qed.

(** A key that holds the nil function reads as a key that is not there. *)
Example run_nil_entry :
  (Resolve example.User "name" example.ctx
     (serving (NewResolverMap example.sch
                 (<["User.name" := nilFunc]> example.handlers)) 0 [])).1 =
    Done (None, None).
Proof. vm_compute. reflexivity. Qed.

Example metaType_table :
  map metaType ["String"; "__Schema"; "Map"; "User"; "string"; "__type"] =
    [true; true; true; false; false; false].
Proof. reflexivity. Qed.

(** ** The claims at the example schema *)

(** A decidable proposition, settled by running its decision procedure. *)
Ltac decide_by_compute :=
  refine (bool_decide_unpack _ _); vm_compute; exact I.

Lemma Resolve_invokes_supplied_handler_witness :
  (Resolve example.User "name" example.ctx example.start).1 =
    Done (Some "Ada", None).
Proof.
  refine (proj2 (proj2
    (Resolve_invokes_supplied_handler example.sch example.handlers
       example.User {| Fields := fieldsOf example.handlers example.User |}
       example.nameField example.nameHandler example.ctx 0 [] _ _ _))
    (Some "Ada") _).
  - vm_compute. reflexivity.
  - decide_by_compute.
  - vm_compute. reflexivity.
  - reflexivity.
Defined.

Lemma Resolve_noop_fallback_witness :
  Resolve example.User "id" example.ctx example.start =
    (Done (None, None),
     serving example.rm 0 [(emptyResolver, example.ctx)]).
Proof.
  refine (proj2
    (Resolve_noop_fallback example.sch example.handlers
       example.User {| Fields := fieldsOf example.handlers example.User |}
       example.idField example.ctx 0 [] _ _ _)).
  - vm_compute. reflexivity.
  - decide_by_compute.
  - vm_compute. reflexivity.
Defined.

Lemma Resolve_lookup_failures_witness :
  (Resolve example.Unregistered "x" example.ctx example.start).2 =
    example.start.
Proof.
  refine (proj2 (proj2
    (Resolve_lookup_failures example.sch example.handlers
       example.Unregistered "x" example.ctx 0 [])) _).
  left. vm_compute. reflexivity.
Defined.

Lemma meta_types_never_registered_witness :
  Types example.rm !! example.introspectionType = None.
Proof.
  refine (meta_types_never_registered example.sch example.handlers
            example.introspectionType _).
  decide_by_compute.
Defined.

Lemma zero_field_types_omitted_witness :
  Types example.rm !! example.SearchResult = None
  /\ Resolve example.SearchResult "id" example.ctx example.start =
       (Done (None, Some (TypeNotFound example.SearchResult)),
        example.start).
Proof.
  refine (let H := zero_field_types_omitted example.sch example.handlers
                     example.SearchResult "id" example.ctx 0 [] _ in
          conj (proj1 (proj2 H)) (proj1 (proj2 (proj2 H)))).
  right. exists 3%positive, "SearchResult". reflexivity.
Defined.

Lemma Resolve_wraps_handler_error_witness :
  (Resolve example.Node "id" example.ctx example.start).1 =
    Done (None,
          Some (HandlerExecutionError example.Node "id" example.dbDown)).
Proof.
  refine (proj1
    (Resolve_wraps_handler_error example.Node "id" example.ctx example.start
       {| Fields := fieldsOf example.handlers example.Node |}
       {| Type_ := "ID"; ResolverFunc_ := closure example.failingHandler |}
       example.failingHandler (Some "stale") example.dbDown 1 _ _ _ _)).
  - vm_compute. reflexivity.
  - vm_compute. reflexivity.
  - reflexivity.
  - reflexivity.
Defined.

Lemma Arg_total_witness :
  Arg example.ctx "first" example.start = (Done (Some "10"), example.start)
  /\ Arg example.noArgs "first" example.start = (Done None, example.start).
Proof.
  split.
  - refine (proj1 (proj2 (Arg_total example.ctx "first" example.start))
              (list_to_map [("first", Some "10")]) (Some "10") _ _).
    + reflexivity.
    + vm_compute. reflexivity.
  - refine (proj2 (proj2 (Arg_total example.noArgs "first" example.start))
              _).
    left. reflexivity.
Defined.

Lemma registry_keys_exact_witness :
  is_Some (Types example.rm !! example.User)
  /\ Types example.rm !! example.Role = None.
Proof.
  split.
  - refine (proj2 (proj1
      (registry_keys_exact example.sch example.handlers example.User)) _).
    split_and!.
    + exists "User". vm_compute. reflexivity.
    + reflexivity.
    + reflexivity.
    + discriminate.
  - refine (proj2 (proj2
      (registry_keys_exact example.sch example.handlers example.Role)) _).
    reflexivity.
Defined.

(** The cases of a membership in a list that is known. *)
Ltac members H :=
  vm_compute in H;
  repeat (apply elem_of_cons in H as [H|H]);
  try (by apply elem_of_nil in H).

Lemma NewResolverMap_ignores_unmatched_entries_witness :
  NewResolverMap example.sch
    (<["Ghost.field" := closure example.nameHandler]> example.handlers) =
  NewResolverMap example.sch example.handlers.
Proof.
  refine (proj1
    (NewResolverMap_ignores_unmatched_entries example.sch example.handlers
       "Ghost.field" (closure example.nameHandler) _)).
  intros t f [name Hname] Hf.
  apply elem_of_map_to_list in Hname.
  members Hname; injection Hname as -> ->; members Hf; subst f;
    vm_compute; discriminate.
Defined.

(** ** Edge cases to run the further properties on *)
Module edge.

Definition xInt : schema.Field string :=
  {| schema.Name := "x"; schema.Type_ := "Int" |}.
Definition xString : schema.Field string :=
  {| schema.Name := "x"; schema.Type_ := "String" |}.
Definition yInt : schema.Field string :=
  {| schema.Name := "y"; schema.Type_ := "Int" |}.

(** A type that declares the field [x] twice. *)
Definition Dup : schema.NamedType string :=
  schema.Object 8 "Dup" [xInt; xString; yInt].

(** A second type of the name [User], at another address. *)
Definition User2 : schema.NamedType string :=
  schema.Object 9 "User" [example.nameField].

(** The types of the example schema and the two above. *)
Definition sch : schema.Schema string :=
  {| schema.Types :=
       list_to_map
         [ ("User", example.User); ("Node", example.Node);
           ("SearchResult", example.SearchResult);
           ("Role", example.Role); ("Empty", example.Empty);
           ("__Type", example.introspectionType);
           ("Dup", Dup); ("UserAgain", User2) ] |}.

(** The types of the example schema, filed under other names, one of
    them twice. *)
Definition refiled : schema.Schema string :=
  {| schema.Types :=
       list_to_map
         [ ("a", example.User); ("b", example.Node);
           ("c", example.SearchResult); ("d", example.Role);
           ("e", example.Empty); ("String", example.introspectionType);
           ("g", example.User) ] |}.

Definition order : list (schema.NamedType string) :=
  [ example.Role; example.User; example.introspectionType; example.Node;
    example.User; example.SearchResult; example.Empty ].

Definition rm : @ResolverMap string _ _ string nat :=
  NewResolverMap sch example.handlers.

End edge.

(** A type of a known list is a type of a schema. *)
Ltac declared := apply declaredType_range; decide_by_compute.

Example run_Dup_x :
  Type_ <$> (Types edge.rm !! edge.Dup ≫= fun tr => Fields tr !! "x")
    = Some "String".
Proof. vm_compute. reflexivity. Qed.

Example run_two_dispatches :
  let run := bind (Resolve example.Node "id" example.ctx)
                  (fun _ => Resolve example.User "name" example.noArgs)
                  example.start in
  run.1 = Done (Some "Ada", None) /\ world run.2 = 2
  /\ invoked run.2 = [(example.failingHandler, example.ctx);
                      (example.nameHandler, example.noArgs)].
Proof. vm_compute. split_and!; reflexivity. Qed.

Lemma build_order_irrelevant_witness :
  foldl (visitType example.handlers) ∅ edge.order = Types example.rm.
Proof.
  refine (build_order_irrelevant example.sch example.handlers edge.order _).
  intros t. split.
  - intros Ht. members Ht; subst t; declared.
  - intros Ht%declaredType_range. members Ht; subst t; decide_by_compute.
Defined.

Lemma build_ignores_filing_names_witness :
  NewResolverMap example.sch example.handlers =
  NewResolverMap edge.refiled example.handlers.
Proof.
  refine (build_ignores_filing_names example.sch edge.refiled
            example.handlers _).
  intros t. split; intros Ht%declaredType_range;
    members Ht; subst t; declared.
Defined.


Lemma duplicate_field_last_wins_witness :
  exists fr,
    Fields {| Fields := fieldsOf example.handlers edge.Dup |} !! "x" = Some fr
    /\ Type_ fr = "String".
Proof.
  refine (duplicate_field_last_wins edge.sch example.handlers edge.Dup
            {| Fields := fieldsOf example.handlers edge.Dup |}
            [edge.xInt] [edge.yInt] edge.xString _ _ _).
  - vm_compute. reflexivity.
  - reflexivity.
  - decide_by_compute.
Defined.

Lemma handlers_bound_by_key_witness :
  ResolverFunc_
    {| Type_ := "String"; ResolverFunc_ := closure example.nameHandler |}
  = ResolverFunc_
      {| Type_ := "String"; ResolverFunc_ := closure example.nameHandler |}.
Proof.
  refine (handlers_bound_by_key edge.sch example.handlers
            example.User edge.User2
            {| Fields := fieldsOf example.handlers example.User |}
            {| Fields := fieldsOf example.handlers edge.User2 |}
            "name" "name" _ _ _ _ _ _ _).
  all: vm_compute; reflexivity.
Defined.

Lemma build_monotone_witness :
  Types example.rm ⊆ Types edge.rm.
Proof.
  refine (build_monotone example.sch edge.sch example.handlers _).
  intros t Ht%declaredType_range. members Ht; subst t; declared.
Defined.

Lemma build_entry_local_witness :
  Types (NewResolverMap example.sch
           (<["User.name" := closure example.failingHandler]>
              example.handlers)) !! example.User
    ≫= (fun tr => Fields tr !! "id")
  = Types (NewResolverMap example.sch example.handlers) !! example.User
    ≫= (fun tr => Fields tr !! "id").
Proof.
  refine (build_entry_local example.sch example.handlers "User.name"
            (closure example.failingHandler) example.User "id" _).
  vm_compute. discriminate.
Defined.

Lemma dispatch_sequence_witness :
  world (bind (Resolve example.Node "id" example.ctx)
              (fun _ => Resolve example.User "name" example.noArgs)
              example.start).2 = 2.
Proof.
  refine (eq_trans
    (f_equal (fun r : Outcome (iface * errors.error_iface) * Machine =>
                world r.2)
       (dispatch_sequence example.sch example.handlers
          example.Node "id" example.ctx
          example.User
          {| Fields := fieldsOf example.handlers example.User |}
          example.nameField example.nameHandler example.noArgs 0 []
          _ _ _)) _).
  - vm_compute. reflexivity.
  - decide_by_compute.
  - vm_compute. reflexivity.
  - vm_compute. reflexivity.
Defined.

Lemma Resolve_success_shape_witness :
  exists tr fr h,
    Types (registry example.start) !! example.User = Some tr
    /\ Fields tr !! "name" = Some fr
    /\ ResolverFunc_ fr = closure h
    /\ (h example.ctx (world example.start)).1 = (Some "Ada", None).
Proof.
  refine (Resolve_success_shape example.User "name" example.ctx
            example.start (Some "Ada") _).
  vm_compute. reflexivity.
Defined.

Lemma build_ignores_meta_type_entries_witness :
  NewResolverMap example.sch
    (<["__Type.name" := closure example.failingHandler]> example.handlers)
  = NewResolverMap example.sch example.handlers.
Proof.
  refine (build_ignores_meta_type_entries example.sch example.handlers
            "__Type.name" (closure example.failingHandler) _).
  intros t f Ht%declaredType_range Hf.
  members Ht; subst t; members Hf; subst f; intros Hkey;
    first [ by vm_compute in Hkey | reflexivity ].
Defined.
